(** * Sources/CUtil/zeroize.c: erasing a region of memory

    The translation unit holds one function,

      void c_zeroize(void *s, size_t n)
      {
          memset(s, 0, n);
          __asm__ __volatile__("" : : "r"(s) : "memory");
      }

    It is embedded once, over an interface for the two primitives it calls,
    and read through two interpretations of that interface: the effect on a
    byte-addressed memory, and the list of primitives invoked. *)

From Stdlib Require Import NArith ZArith Lia.
From Stdlib.Strings Require Import Byte.
From stdpp Require Import base option list gmap.

Local Open Scope N_scope.

(** ** Data *)

(** [void *]: a flat byte address. [size_t]: an unsigned count of bytes. *)
Abbreviation addr := N (only parsing).
Abbreviation size_t := N (only parsing).

(** The store: the bytes that are allocated and writable, by address.  An
    address that is absent from the map is not part of any object. *)
Abbreviation memory := (gmap N Byte.byte) (only parsing).

(** The region [s, s + n) lies inside allocated, writable storage. *)
Definition valid_region (m : memory) (s : addr) (n : size_t) : Prop :=
  ∀ i, i < n → is_Some (m !! (s + i)).

(** The same, as a check that runs. *)
Definition valid_regionb (m : memory) (s : addr) (n : size_t) : bool :=
  forallb (λ i, bool_decide (is_Some (m !! (s + N.of_nat i)))) (seq 0 (N.to_nat n)).

(** The address [a] belongs to [s, s + n). *)
Definition in_region (s : addr) (n : size_t) (a : addr) : Prop :=
  s ≤ a ∧ a < s + n.

#[global] Instance in_region_dec s n a : Decision (in_region s n a).
Proof. unfold in_region. apply _. Defined.

(** ** The primitives [c_zeroize] calls *)

(** What <string.h> and the compiler give the function: [memset], which
    returns its first argument, and the [asm] statement with one register
    input.  [M] is the effect the calls live in. *)
Class Libc (M : Type → Type) := {
  memset : addr → Z → size_t → M addr;
  asm_barrier : addr → M unit;
}.

(** ** zeroize.c *)

(** [void c_zeroize(void *s, size_t n)]: the two statements of the body, in
    order.  The value [memset] returns is dropped and nothing is returned. *)
Definition c_zeroize {M : Type → Type} `{!MBind M, !Libc M}
    (s : addr) (n : size_t) : M unit :=
  memset s 0%Z n ;; asm_barrier s.

(** ** First interpretation: running on a memory *)

(** A call either returns a value and leaves a memory, or its behaviour is
    undefined (an access outside every object). *)
Inductive outcome (A : Type) : Type :=
  | Done (a : A) (m : memory)
  | Undefined.
Arguments Done {A} a m.
Arguments Undefined {A}.

Definition Exec (A : Type) : Type := memory → outcome A.

#[global] Instance Exec_ret : MRet Exec := λ A a m, Done a m.

#[global] Instance Exec_bind : MBind Exec := λ A B f x m,
  match x m with
  | Done a m' => f a m'
  | Undefined => Undefined
  end.

(** Conversion of an [int] to [unsigned char]: reduction modulo 256. *)
Definition to_uchar (c : Z) : Byte.byte :=
  match Byte.of_N (Z.to_N (c mod 256)) with
  | Some b => b
  | None => Byte.x00
  end.

(** One byte store; outside allocated storage there is no result. *)
Definition store (a : addr) (b : Byte.byte) (m : memory) : option memory :=
  match m !! a with
  | Some _ => Some (<[a := b]> m)
  | None => None
  end.

(** [k] consecutive byte stores of [b], from address [a] upwards. *)
Fixpoint fill (a : addr) (b : Byte.byte) (k : nat) (m : memory) : option memory :=
  match k with
  | O => Some m
  | S k' =>
      match store a b m with
      | Some m' => fill (N.succ a) b k' m'
      | None => None
      end
  end.

(** Modelled from the spec: [memset] is the C library's and not part of the
    repository.  It is the spec's bulk zero-fill, "every byte in
    [address, address + length) is set" and "if length is 0, the call is a
    no-op": the value [c], converted to [unsigned char], is stored into each
    of the first [n] bytes at [s], and [s] is returned.  The stores are the
    only accesses, so a call with [n = 0] touches nothing. *)
Definition exec_memset (s : addr) (c : Z) (n : size_t) : Exec addr :=
  λ m, match fill s (to_uchar c) (N.to_nat n) m with
       | Some m' => Done s m'
       | None => Undefined
       end.

(** [__asm__ __volatile__("" : : "r"(s) : "memory")]: the template is empty,
    so no instruction runs; [s] is only an input and memory is left as it
    is. *)
Definition exec_asm_barrier (s : addr) : Exec unit :=
  λ m, Done tt m.

#[global] Instance Exec_libc : Libc Exec := {
  memset := exec_memset;
  asm_barrier := exec_asm_barrier;
}.

(** [c_zeroize] run on a memory. *)
Definition run_c_zeroize (s : addr) (n : size_t) : Exec unit :=
  c_zeroize (M := Exec) s n.

(** A caller's sequence of calls to the primitive, each on its own region,
    run one after the other. *)
Fixpoint run_calls (h : list (N * N)) : Exec unit :=
  match h with
  | [] => mret tt
  | (s, n) :: h' => run_c_zeroize s n ;; run_calls h'
  end.

(** ** Second interpretation: the primitives invoked *)

(** The calls the body can make: [memset], the Annex K [memset_s] the
    comment in the body speaks of, and the [asm] statement. *)
Inductive call : Type :=
  | Call_memset (s : addr) (c : Z) (n : size_t)
  | Call_memset_s (s : addr) (smax : size_t) (c : Z) (n : size_t)
  | Call_asm_barrier (s : addr).

(** A value together with the calls made to compute it, oldest first. *)
Definition Log (A : Type) : Type := (A * list call)%type.

#[global] Instance Log_ret : MRet Log := λ A a, (a, []).

#[global] Instance Log_bind : MBind Log := λ A B f x,
  let r := f x.1 in (r.1, x.2 ++ r.2).

#[global] Instance Log_libc : Libc Log := {
  memset s c n := (s, [Call_memset s c n]);
  asm_barrier s := (tt, [Call_asm_barrier s]);
}.

(** What the build target offers: whether <string.h> declares [memset_s]. *)
Record platform : Type := { has_memset_s : bool }.

(** The calls [c_zeroize] makes on a platform.  zeroize.c has no conditional
    compilation, so the platform does not enter the body. *)
Definition calls_c_zeroize (P : platform) (s : addr) (n : size_t) : list call :=
  (c_zeroize (M := Log) s n).2.

(** A call to a secure-zero primitive. *)
Definition is_secure_zero (c : call) : bool :=
  match c with
  | Call_memset_s _ _ _ _ => true
  | _ => false
  end.

(** A call that overwrites bytes. *)
Definition is_overwrite (c : call) : bool :=
  match c with
  | Call_memset _ _ _ | Call_memset_s _ _ _ _ => true
  | Call_asm_barrier _ => false
  end.

(** ** Scenarios of the specification *)

(** [k] bytes of value [b] allocated from address [a]. *)
Fixpoint buffer (a : addr) (b : Byte.byte) (k : nat) : memory :=
  match k with
  | O => ∅
  | S k' => <[a := b]> (buffer (N.succ a) b k')
  end.

Example zeroize_32_bytes_of_ff :
  run_c_zeroize 4096 32 (buffer 4096 Byte.xff 32) = Done tt (buffer 4096 Byte.x00 32).
Proof. vm_compute. reflexivity. Qed.

Example zeroize_one_byte_7a :
  run_c_zeroize 4096 1 (buffer 4096 Byte.x7a 1) = Done tt (buffer 4096 Byte.x00 1).
Proof. vm_compute. reflexivity. Qed.

Example zeroize_length_0 :
  run_c_zeroize 4096 0 (buffer 4096 Byte.x7a 4) = Done tt (buffer 4096 Byte.x7a 4).
Proof. vm_compute. reflexivity. Qed.

Example zeroize_past_the_end :
  run_c_zeroize 4096 5 (buffer 4096 Byte.x7a 4) = Undefined.
Proof. vm_compute. reflexivity. Qed.

Example zeroize_calls :
  calls_c_zeroize {| has_memset_s := true |} 4096 32
  = [Call_memset 4096 0 32; Call_asm_barrier 4096].
Proof. reflexivity. Qed.

(** ** Byte stores *)

Section stores.
Implicit Types (m : gmap N Byte.byte) (a s x : N) (b : Byte.byte) (k j : nat).

Lemma to_uchar_0 : to_uchar 0 = Byte.x00.
Proof. reflexivity. Qed.

Lemma store_Some a b m m' :
  store a b m = Some m' ↔ is_Some (m !! a) ∧ m' = <[a := b]> m.
Proof.
  unfold store. destruct (m !! a) as [v|] eqn:E.
  - split; [intros [= <-]; eauto | intros [_ ->]; reflexivity].
  - split; [discriminate | intros [[v Hv] _]; discriminate].
Qed.

Lemma store_None a b m : store a b m = None ↔ m !! a = None.
Proof. unfold store. destruct (m !! a); split; congruence. Qed.

(** A fill succeeds exactly on a region that is allocated throughout. *)
Lemma fill_is_Some k : ∀ a b m,
  is_Some (fill a b k m) ↔ ∀ i, i < N.of_nat k → is_Some (m !! (a + i)).
Proof.
  induction k as [|k IH]; intros a b m; simpl.
  - split; [intros _ i Hi; lia | eauto].
  - destruct (store a b m) as [m'|] eqn:E.
    + apply store_Some in E as [Ha ->]. rewrite IH. split.
      * intros H i Hi. destruct (decide (i = 0)) as [->|Hne].
        { by rewrite N.add_0_r. }
        specialize (H (N.pred i)). rewrite lookup_insert_ne in H by lia.
        replace (N.succ a + N.pred i) with (a + i) in H by lia.
        apply H. lia.
      * intros H i Hi. rewrite lookup_insert_ne by lia.
        replace (N.succ a + i) with (a + N.succ i) by lia. apply H. lia.
    + apply store_None in E. split; [intros [? ?]; discriminate |].
      intros H. specialize (H 0). rewrite N.add_0_r, E in H.
      destruct H as [? ?]; [lia | discriminate].
Qed.

(** After a fill, the region holds [b] and every other address is as it
    was. *)
Lemma fill_lookup k : ∀ a b m m' x,
  fill a b k m = Some m' →
  m' !! x = if decide (in_region a (N.of_nat k) x) then Some b else m !! x.
Proof.
  unfold in_region.
  induction k as [|k IH]; intros a b m m' x; simpl.
  - intros [= <-]. case_decide; [lia | done].
  - destruct (store a b m) as [m1|] eqn:E; [|discriminate].
    apply store_Some in E as [Ha ->]. intros H.
    rewrite (IH _ _ _ _ x H).
    destruct (decide (x = a)) as [->|Hne].
    + rewrite lookup_insert_eq. repeat case_decide; try done; lia.
    + rewrite lookup_insert_ne by done. repeat case_decide; try done; lia.
Qed.

(** A fill neither allocates nor frees. *)
Lemma fill_dom k : ∀ a b m m', fill a b k m = Some m' → dom m' = dom m.
Proof.
  induction k as [|k IH]; intros a b m m'; simpl.
  - by intros [= <-].
  - destruct (store a b m) as [m1|] eqn:E; [|discriminate].
    apply store_Some in E as [Ha ->]. intros H.
    rewrite (IH _ _ _ _ H), dom_insert_L.
    apply subseteq_union_1_L, singleton_subseteq_l. by apply elem_of_dom.
Qed.

(** A fill of [j + k] bytes is a fill of [j] bytes, then one of [k] bytes
    from where the first stopped. *)
Lemma fill_add j : ∀ k a b m,
  fill a b (j + k) m = fill a b j m ≫= fill (a + N.of_nat j) b k.
Proof.
  induction j as [|j IH]; intros k a b m; simpl.
  - by rewrite N.add_0_r.
  - destruct (store a b m) as [m1|]; [|done].
    rewrite IH. by replace (N.succ a + N.of_nat j) with (a + N.pos (Pos.of_succ_nat j)) by lia.
Qed.
End stores.

(** ** The run of [c_zeroize] *)

Section run.
Implicit Types (m : gmap N Byte.byte) (s n a : N).

Lemma valid_regionb_true m s n : valid_regionb m s n = true → valid_region m s n.
Proof.
  unfold valid_regionb, valid_region. rewrite forallb_forall.
  intros H i Hi. specialize (H (N.to_nat i)).
  rewrite N2Nat.id in H. eapply bool_decide_eq_true_1, H, in_seq. lia.
Qed.

Lemma valid_region_fill m s n b :
  valid_region m s n ↔ is_Some (fill s b (N.to_nat n) m).
Proof. rewrite fill_is_Some, N2Nat.id. reflexivity. Qed.

(** The run is the zero fill of [n] bytes at [s]; the barrier adds
    nothing to it. *)
Lemma run_c_zeroize_fill s n m :
  run_c_zeroize s n m =
  match fill s Byte.x00 (N.to_nat n) m with
  | Some m' => Done tt m'
  | None => Undefined
  end.
Proof.
  unfold run_c_zeroize, c_zeroize, mbind, Exec_bind; simpl.
  unfold exec_memset, exec_asm_barrier. rewrite to_uchar_0.
  by destruct (fill s Byte.x00 (N.to_nat n) m).
Qed.

Lemma run_c_zeroize_valid s n m :
  valid_region m s n →
  ∃ m', fill s Byte.x00 (N.to_nat n) m = Some m' ∧ run_c_zeroize s n m = Done tt m'.
Proof.
  intros [m' E]%(valid_region_fill _ _ _ Byte.x00).
  exists m'. by rewrite run_c_zeroize_fill, E.
Qed.

Lemma run_c_zeroize_invalid s n m :
  ¬ valid_region m s n → run_c_zeroize s n m = Undefined.
Proof.
  rewrite (valid_region_fill _ _ _ Byte.x00), run_c_zeroize_fill.
  destruct (fill s Byte.x00 (N.to_nat n) m); [intros []; eauto | done].
Qed.

(** The memory a completed run leaves: zero in the region, the old byte
    elsewhere. *)
Lemma run_c_zeroize_lookup s n m m' a :
  run_c_zeroize s n m = Done tt m' →
  m' !! a = if decide (in_region s n a) then Some Byte.x00 else m !! a.
Proof.
  rewrite run_c_zeroize_fill.
  destruct (fill s Byte.x00 (N.to_nat n) m) as [m1|] eqn:E; [|discriminate].
  intros [= <-]. rewrite (fill_lookup _ _ _ _ _ a E), N2Nat.id. reflexivity.
Qed.

Lemma bind_Done {A B} (x : Exec A) (f : A → Exec B) m (v : A) m' :
  x m = Done v m' → (x ≫= f) m = f v m'.
Proof. unfold mbind, Exec_bind. by intros ->. Qed.

Lemma buffer_lookup k : ∀ a b x,
  buffer a b k !! x = if decide (in_region a (N.of_nat k) x) then Some b else None.
Proof.
  unfold in_region. induction k as [|k IH]; intros a b x; simpl.
  - rewrite lookup_empty. case_decide; [lia | done].
  - destruct (decide (x = a)) as [->|Hne].
    + rewrite lookup_insert_eq. case_decide; [done | lia].
    + rewrite lookup_insert_ne, IH by done. repeat case_decide; try done; lia.
Qed.
End run.

(** ** The contract of the erasure *)

(** C1: for a valid writable region of length n >= 1 and any contents, the
    call returns and every byte of [s, s + n) then holds zero. *)
Theorem c_zeroize_zeroes_region (m : gmap N Byte.byte) (s n : N) :
  1 ≤ n →
  valid_region m s n →
  ∃ m', run_c_zeroize s n m = Done tt m' ∧
        ∀ a, in_region s n a → m' !! a = Some Byte.x00.
Proof.
  intros _ (m' & _ & Hrun)%run_c_zeroize_valid. exists m'. split; [done|].
  intros a Ha. rewrite (run_c_zeroize_lookup _ _ _ _ a Hrun).
  by rewrite decide_True.
Qed.

Lemma c_zeroize_zeroes_region_witness :
  ∃ m', run_c_zeroize 4096 32 (buffer 4096 Byte.xff 32) = Done tt m' ∧
        ∀ a, in_region 4096 32 a → m' !! a = Some Byte.x00.
Proof.
  apply (c_zeroize_zeroes_region (buffer 4096 Byte.xff 32) 4096 32).
  - lia.
  - apply valid_regionb_true. vm_compute. reflexivity.
Defined.

(** C2: with length 0, at any address, the call returns and the whole
    memory is as it was. *)
Theorem c_zeroize_length_zero (m : gmap N Byte.byte) (s : N) :
  run_c_zeroize s 0 m = Done tt m.
Proof. by rewrite run_c_zeroize_fill. Qed.

(** C4: on a valid region the call returns, every byte outside [s, s + n)
    holds what it held before, and the set of allocated addresses is the
    same: nothing is allocated and nothing is freed. *)
Theorem c_zeroize_frame (m : gmap N Byte.byte) (s n : N) :
  valid_region m s n →
  ∃ m', run_c_zeroize s n m = Done tt m' ∧
        (∀ a, ¬ in_region s n a → m' !! a = m !! a) ∧
        dom m' = dom m.
Proof.
  intros (m' & Hfill & Hrun)%run_c_zeroize_valid. exists m'.
  split; [done|]. split.
  - intros a Ha. rewrite (run_c_zeroize_lookup _ _ _ _ a Hrun).
    by rewrite decide_False.
  - by apply fill_dom in Hfill.
Qed.

Lemma c_zeroize_frame_witness :
  ∃ m', run_c_zeroize 4100 8 (buffer 4096 Byte.xff 32) = Done tt m' ∧
        (∀ a, ¬ in_region 4100 8 a → m' !! a = buffer 4096 Byte.xff 32 !! a) ∧
        dom m' = dom (buffer 4096 Byte.xff 32).
Proof.
  apply (c_zeroize_frame (buffer 4096 Byte.xff 32) 4100 8).
  apply valid_regionb_true. vm_compute. reflexivity.
Defined.

(** C5: on a valid region, two calls in succession leave the memory that one
    call leaves. *)
Theorem c_zeroize_idempotent (m : gmap N Byte.byte) (s n : N) :
  valid_region m s n →
  ∃ m', run_c_zeroize s n m = Done tt m' ∧
        (run_c_zeroize s n ;; run_c_zeroize s n) m = Done tt m'.
Proof.
  intros Hv. destruct (run_c_zeroize_valid _ _ _ Hv) as (m' & _ & Hrun).
  exists m'. split; [done|]. rewrite (bind_Done _ _ _ _ _ Hrun).
  assert (Hv' : valid_region m' s n).
  { intros i Hi. rewrite (run_c_zeroize_lookup _ _ _ _ (s + i) Hrun).
    rewrite decide_True; [eauto | unfold in_region; lia]. }
  destruct (run_c_zeroize_valid _ _ _ Hv') as (m'' & _ & Hrun').
  rewrite Hrun'. f_equal. apply map_eq. intros a.
  rewrite (run_c_zeroize_lookup _ _ _ _ a Hrun').
  rewrite (run_c_zeroize_lookup _ _ _ _ a Hrun).
  by case_decide.
Qed.

Lemma c_zeroize_idempotent_witness :
  ∃ m', run_c_zeroize 4096 32 (buffer 4096 Byte.xff 32) = Done tt m' ∧
        (run_c_zeroize 4096 32 ;; run_c_zeroize 4096 32) (buffer 4096 Byte.xff 32)
        = Done tt m'.
Proof.
  apply (c_zeroize_idempotent (buffer 4096 Byte.xff 32) 4096 32).
  apply valid_regionb_true. vm_compute. reflexivity.
Defined.

(** C10: two memories that agree outside [s, s + n), the region valid in
    both, are taken by the call to one and the same memory: nothing of the
    region's earlier contents is left. *)
Theorem c_zeroize_erases_contents (m1 m2 : gmap N Byte.byte) (s n : N) :
  valid_region m1 s n →
  valid_region m2 s n →
  (∀ a, ¬ in_region s n a → m1 !! a = m2 !! a) →
  ∃ m', run_c_zeroize s n m1 = Done tt m' ∧ run_c_zeroize s n m2 = Done tt m'.
Proof.
  intros (m1' & _ & Hrun1)%run_c_zeroize_valid
         (m2' & _ & Hrun2)%run_c_zeroize_valid Hout.
  exists m1'. split; [done|]. rewrite Hrun2. f_equal. apply map_eq. intros a.
  rewrite (run_c_zeroize_lookup _ _ _ _ a Hrun1).
  rewrite (run_c_zeroize_lookup _ _ _ _ a Hrun2).
  case_decide; [done | symmetry; by apply Hout].
Qed.

Lemma c_zeroize_erases_contents_witness :
  ∃ m', run_c_zeroize 4096 32 (buffer 4096 Byte.xff 32) = Done tt m' ∧
        run_c_zeroize 4096 32 (buffer 4096 Byte.x7a 32) = Done tt m'.
Proof.
  apply (c_zeroize_erases_contents
           (buffer 4096 Byte.xff 32) (buffer 4096 Byte.x7a 32) 4096 32).
  - apply valid_regionb_true. vm_compute. reflexivity.
  - apply valid_regionb_true. vm_compute. reflexivity.
  - intros a Ha. rewrite !buffer_lookup. by rewrite !decide_False.
Defined.

(** C9: on a valid region and for k <= n, zeroizing [s, s + n) in one call
    leaves the same memory as zeroizing [s, s + k) and then [s + k, s + n). *)
Theorem c_zeroize_split (m : gmap N Byte.byte) (s n k : N) :
  valid_region m s n →
  k ≤ n →
  ∃ m', run_c_zeroize s n m = Done tt m' ∧
        (run_c_zeroize s k ;; run_c_zeroize (s + k) (n - k)) m = Done tt m'.
Proof.
  intros (m' & Hfill & Hrun)%run_c_zeroize_valid Hk. exists m'. split; [done|].
  replace (N.to_nat n) with (N.to_nat k + N.to_nat (n - k))%nat in Hfill by lia.
  rewrite fill_add, N2Nat.id in Hfill.
  destruct (fill s Byte.x00 (N.to_nat k) m) as [mk|] eqn:Ek; [|discriminate].
  simpl in Hfill.
  assert (Hrunk : run_c_zeroize s k m = Done tt mk).
  { by rewrite run_c_zeroize_fill, Ek. }
  rewrite (bind_Done _ _ _ _ _ Hrunk), run_c_zeroize_fill. by rewrite Hfill.
Qed.

Lemma c_zeroize_split_witness :
  ∃ m', run_c_zeroize 4096 32 (buffer 4096 Byte.xff 32) = Done tt m' ∧
        (run_c_zeroize 4096 12 ;; run_c_zeroize (4096 + 12) (32 - 12))
          (buffer 4096 Byte.xff 32) = Done tt m'.
Proof.
  apply (c_zeroize_split (buffer 4096 Byte.xff 32) 4096 32 12).
  - apply valid_regionb_true. vm_compute. reflexivity.
  - lia.
Defined.

(** C8: the call keeps no state from one call to the next and its result
    is fixed by its arguments and the memory it starts from.  Take two runs
    with any earlier calls, on any memories, that have reached [ma] and
    [mb], the region valid in both.  Both runs are continued by
    [c_zeroize s n] to a result; inside [s, s + n) the two results hold the
    same bytes, whatever [ma], [mb] and the earlier calls were, so nothing
    stored anywhere is consulted; outside the region each result holds what
    its own memory held, so nothing is stored for a later call.  When the
    two memories are identical, so are the two results. *)
Theorem c_zeroize_no_cross_call_state
    (h1 h2 : list (N * N)) (m1 m2 ma mb : gmap N Byte.byte) (s n : N) :
  run_calls h1 m1 = Done tt ma →
  run_calls h2 m2 = Done tt mb →
  valid_region ma s n →
  valid_region mb s n →
  ∃ ma' mb',
    (run_calls h1 ;; run_c_zeroize s n) m1 = Done tt ma' ∧
    (run_calls h2 ;; run_c_zeroize s n) m2 = Done tt mb' ∧
    (∀ a, in_region s n a → ma' !! a = mb' !! a) ∧
    (∀ a, ¬ in_region s n a → ma' !! a = ma !! a ∧ mb' !! a = mb !! a) ∧
    (ma = mb → ma' = mb').
Proof.
  intros H1 H2 (ma' & _ & Ha)%run_c_zeroize_valid (mb' & _ & Hb)%run_c_zeroize_valid.
  exists ma', mb'.
  rewrite (bind_Done _ _ _ _ _ H1), (bind_Done _ _ _ _ _ H2).
  split; [done|]. split; [done|].
  assert (La := λ a, run_c_zeroize_lookup _ _ _ _ a Ha).
  assert (Lb := λ a, run_c_zeroize_lookup _ _ _ _ a Hb).
  split; [|split].
  - intros a Hin. by rewrite La, Lb, !decide_True.
  - intros a Hout. by rewrite La, Lb, !decide_False.
  - intros <-. congruence.
Qed.

Lemma c_zeroize_no_cross_call_state_witness :
  ∃ ma' mb',
    (run_calls [(4096, 2)] ;; run_c_zeroize 4096 1) (buffer 4096 Byte.xff 2)
    = Done tt ma' ∧
    (run_calls [(4097, 1); (4096, 1)] ;; run_c_zeroize 4096 1) (buffer 4096 Byte.x7a 2)
    = Done tt mb' ∧
    (∀ a, in_region 4096 1 a → ma' !! a = mb' !! a) ∧
    (∀ a, ¬ in_region 4096 1 a →
          ma' !! a = buffer 4096 Byte.x00 2 !! a ∧
          mb' !! a = buffer 4096 Byte.x00 2 !! a) ∧
    (buffer 4096 Byte.x00 2 = buffer 4096 Byte.x00 2 → ma' = mb').
Proof.
  apply (c_zeroize_no_cross_call_state
           [(4096, 2)] [(4097, 1); (4096, 1)]
           (buffer 4096 Byte.xff 2) (buffer 4096 Byte.x7a 2)
           (buffer 4096 Byte.x00 2) (buffer 4096 Byte.x00 2) 4096 1).
  - vm_compute. reflexivity.
  - vm_compute. reflexivity.
  - apply valid_regionb_true. vm_compute. reflexivity.
  - apply valid_regionb_true. vm_compute. reflexivity.
Defined.

(** C6: the call has two outcomes and no third.  On a valid region it
    returns, and what it returns is the one value of [unit]; on any other
    address and length its behaviour is undefined.  No outcome carries an
    error. *)
Theorem c_zeroize_no_error_channel (m : gmap N Byte.byte) (s n : N) :
  (valid_region m s n ∧ ∃ m', run_c_zeroize s n m = Done tt m') ∨
  (¬ valid_region m s n ∧ run_c_zeroize s n m = Undefined).
Proof.
  destruct (fill s Byte.x00 (N.to_nat n) m) as [m'|] eqn:E.
  - left. assert (Hv : valid_region m s n).
    { apply (valid_region_fill _ _ _ Byte.x00). eauto. }
    split; [done|]. exists m'. by rewrite run_c_zeroize_fill, E.
  - right. assert (Hv : ¬ valid_region m s n).
    { rewrite (valid_region_fill _ _ _ Byte.x00), E. by intros [? ?]. }
    split; [done|]. by apply run_c_zeroize_invalid.
Qed.

(** ** The primitives used *)

(** C3: the failing input, a platform whose <string.h> has [memset_s] and
    the call [c_zeroize(4096, 32)].  The calls made are [memset] and the
    barrier; the call that overwrites is the plain [memset], not a
    secure-zero primitive.  The comment in the body puts [memset_s] first
    and the barrier second; the body has only the second. *)
Theorem c_zeroize_memset_despite_memset_s :
  has_memset_s {| has_memset_s := true |} = true ∧
  calls_c_zeroize {| has_memset_s := true |} 4096 32
  = [Call_memset 4096 0 32; Call_asm_barrier 4096] ∧
  ¬ (∀ c, c ∈ calls_c_zeroize {| has_memset_s := true |} 4096 32 →
          is_overwrite c = true → is_secure_zero c = true).
Proof.
  split; [reflexivity|]. split; [reflexivity|].
  intros H. specialize (H (Call_memset 4096 0 32)).
  discriminate H; [apply list_elem_of_here | reflexivity].
Qed.

(** ** Calls in sequence *)

Section sequence.
Implicit Types (m : gmap N Byte.byte) (s n a : N).

Lemma bind_Undefined {A B} (x : Exec A) (f : A → Exec B) m :
  x m = Undefined → (x ≫= f) m = Undefined.
Proof. unfold mbind, Exec_bind. by intros ->. Qed.

Lemma valid_region_cases m s n : valid_region m s n ∨ ¬ valid_region m s n.
Proof.
  destruct (fill s Byte.x00 (N.to_nat n) m) as [m'|] eqn:E.
  - left. apply (valid_region_fill _ _ _ Byte.x00). eauto.
  - right. rewrite (valid_region_fill _ _ _ Byte.x00), E. by intros [? ?].
Qed.

Lemma run_c_zeroize_Done_valid s n m m' :
  run_c_zeroize s n m = Done tt m' → valid_region m s n.
Proof.
  intros Hrun. destruct (valid_region_cases m s n) as [|Hn]; [done|].
  apply run_c_zeroize_invalid in Hn. congruence.
Qed.

(** A completed run leaves every address allocated or not as it found it. *)
Lemma run_c_zeroize_is_Some s n m m' a :
  run_c_zeroize s n m = Done tt m' → is_Some (m' !! a) ↔ is_Some (m !! a).
Proof.
  intros Hrun. rewrite (run_c_zeroize_lookup _ _ _ _ a Hrun).
  case_decide as Ha; [|done].
  split; [intros _ | eauto].
  pose proof (run_c_zeroize_Done_valid _ _ _ _ Hrun (a - s)) as Hv.
  destruct Ha as [Ha1 Ha2].
  replace (s + (a - s)) with a in Hv by lia. apply Hv. lia.
Qed.

Lemma run_c_zeroize_valid_after s n m m' s' n' :
  run_c_zeroize s n m = Done tt m' →
  valid_region m' s' n' ↔ valid_region m s' n'.
Proof.
  intros Hrun. unfold valid_region.
  split; intros H i Hi; apply (run_c_zeroize_is_Some _ _ _ _ _ Hrun), H, Hi.
Qed.

(** Two calls on regions that are both valid: the run returns, with zero in
    either region and the old byte everywhere else. *)
Lemma run_seq_Done s1 n1 s2 n2 m :
  valid_region m s1 n1 →
  valid_region m s2 n2 →
  ∃ m', (run_c_zeroize s1 n1 ;; run_c_zeroize s2 n2) m = Done tt m' ∧
        ∀ a, m' !! a =
             if decide (in_region s1 n1 a ∨ in_region s2 n2 a)
             then Some Byte.x00 else m !! a.
Proof.
  intros (m1 & _ & Hrun1)%run_c_zeroize_valid Hv2.
  apply (run_c_zeroize_valid_after _ _ _ _ s2 n2 Hrun1) in Hv2.
  destruct (run_c_zeroize_valid _ _ _ Hv2) as (m2 & _ & Hrun2).
  exists m2. rewrite (bind_Done _ _ _ _ _ Hrun1). split; [done|].
  intros a. rewrite (run_c_zeroize_lookup _ _ _ _ a Hrun2).
  rewrite (run_c_zeroize_lookup _ _ _ _ a Hrun1).
  repeat case_decide; try done; tauto.
Qed.

(** If either region is not valid, the behaviour of the pair is undefined. *)
Lemma run_seq_Undefined s1 n1 s2 n2 m :
  ¬ (valid_region m s1 n1 ∧ valid_region m s2 n2) →
  (run_c_zeroize s1 n1 ;; run_c_zeroize s2 n2) m = Undefined.
Proof.
  intros Hn. destruct (valid_region_cases m s1 n1) as [Hv1|Hv1].
  - destruct (run_c_zeroize_valid _ _ _ Hv1) as (m1 & _ & Hrun1).
    rewrite (bind_Done _ _ _ _ _ Hrun1). apply run_c_zeroize_invalid.
    rewrite (run_c_zeroize_valid_after _ _ _ _ s2 n2 Hrun1). tauto.
  - apply bind_Undefined. by apply run_c_zeroize_invalid.
Qed.

(** Two outcomes that return memories with the same bytes are equal. *)
Lemma Done_ext (m1 m2 : gmap N Byte.byte) :
  (∀ a, m1 !! a = m2 !! a) → Done tt m1 = Done tt m2.
Proof. intros H. f_equal. by apply map_eq. Qed.
End sequence.

(** ** How calls compose *)

(** X1: two calls commute, whatever the two regions and the memory: in
    either order the outcome is the same, and the pair returns exactly when
    both regions are valid in the memory the first call starts from. *)
Theorem c_zeroize_commute (m : gmap N Byte.byte) (s1 n1 s2 n2 : N) :
  (run_c_zeroize s1 n1 ;; run_c_zeroize s2 n2) m
  = (run_c_zeroize s2 n2 ;; run_c_zeroize s1 n1) m ∧
  ((∃ m', (run_c_zeroize s1 n1 ;; run_c_zeroize s2 n2) m = Done tt m') ↔
   valid_region m s1 n1 ∧ valid_region m s2 n2).
Proof.
  destruct (valid_region_cases m s1 n1) as [Hv1|Hv1];
    [destruct (valid_region_cases m s2 n2) as [Hv2|Hv2]|].
  - destruct (run_seq_Done _ _ _ _ _ Hv1 Hv2) as (m12 & H12 & L12).
    destruct (run_seq_Done _ _ _ _ _ Hv2 Hv1) as (m21 & H21 & L21).
    rewrite H12, H21. split; [|split; eauto].
    apply Done_ext. intros a. rewrite L12, L21.
    repeat case_decide; try done; tauto.
  - rewrite !run_seq_Undefined by tauto. split; [done|].
    split; [intros [? ?]; discriminate | tauto].
  - rewrite !run_seq_Undefined by tauto. split; [done|].
    split; [intros [? ?]; discriminate | tauto].
Qed.

(** X2: a call on [s1, s1 + n1) followed by a call on a region that starts
    inside it or at its end has the outcome of one call on the union of the
    two, from [s1] over max(n1, s2 - s1 + n2) bytes. *)
Theorem c_zeroize_merge (m : gmap N Byte.byte) (s1 n1 s2 n2 : N) :
  s1 ≤ s2 →
  s2 ≤ s1 + n1 →
  (run_c_zeroize s1 n1 ;; run_c_zeroize s2 n2) m
  = run_c_zeroize s1 (N.max n1 (s2 - s1 + n2)) m.
Proof.
  intros Hlo Hhi. set (n := N.max n1 (s2 - s1 + n2)).
  assert (Hvalid : valid_region m s1 n ↔ valid_region m s1 n1 ∧ valid_region m s2 n2).
  { unfold valid_region. split.
    - intros H. split; intros i Hi.
      + apply H. lia.
      + replace (s2 + i) with (s1 + (s2 - s1 + i)) by lia. apply H. lia.
    - intros [H1 H2] i Hi. destruct (decide (i < n1)) as [Hlt|Hge].
      + by apply H1.
      + replace (s1 + i) with (s2 + (i - (s2 - s1))) by lia. apply H2. lia. }
  destruct (valid_region_cases m s1 n) as [Hv|Hv].
  - destruct (run_c_zeroize_valid _ _ _ Hv) as (m' & _ & Hrun).
    apply Hvalid in Hv as [Hv1 Hv2].
    destruct (run_seq_Done _ _ _ _ _ Hv1 Hv2) as (m12 & H12 & L12).
    rewrite H12, Hrun. apply Done_ext. intros a.
    rewrite L12, (run_c_zeroize_lookup _ _ _ _ a Hrun).
    unfold in_region. repeat case_decide; try done; lia.
  - rewrite (run_c_zeroize_invalid _ _ _ Hv).
    apply run_seq_Undefined. by rewrite <- Hvalid.
Qed.

Lemma c_zeroize_merge_witness :
  (run_c_zeroize 4096 16 ;; run_c_zeroize 4104 20) (buffer 4096 Byte.xff 32)
  = run_c_zeroize 4096 (N.max 16 (4104 - 4096 + 20)) (buffer 4096 Byte.xff 32).
Proof.
  apply (c_zeroize_merge (buffer 4096 Byte.xff 32) 4096 16 4104 20); lia.
Defined.

(** X3: when [s', s' + n') lies inside [s, s + n), a call on the part and a
    call on the whole, in either order, have the outcome of the call on the
    whole alone. *)
Theorem c_zeroize_absorbs_part (m : gmap N Byte.byte) (s n s' n' : N) :
  s ≤ s' →
  s' + n' ≤ s + n →
  (run_c_zeroize s' n' ;; run_c_zeroize s n) m = run_c_zeroize s n m ∧
  (run_c_zeroize s n ;; run_c_zeroize s' n') m = run_c_zeroize s n m.
Proof.
  intros Hlo Hhi. destruct (valid_region_cases m s n) as [Hv|Hv].
  - assert (Hv' : valid_region m s' n').
    { intros i Hi. replace (s' + i) with (s + (s' - s + i)) by lia.
      apply Hv. lia. }
    destruct (run_c_zeroize_valid _ _ _ Hv) as (m1 & _ & Hrun).
    destruct (run_seq_Done _ _ _ _ _ Hv' Hv) as (ma & Ha & La).
    destruct (run_seq_Done _ _ _ _ _ Hv Hv') as (mb & Hb & Lb).
    rewrite Ha, Hb, Hrun.
    split; apply Done_ext; intros a;
      rewrite ?La, ?Lb, (run_c_zeroize_lookup _ _ _ _ a Hrun);
      unfold in_region; repeat case_decide; try done; lia.
  - rewrite (run_c_zeroize_invalid _ _ _ Hv).
    split; apply run_seq_Undefined; tauto.
Qed.

Lemma c_zeroize_absorbs_part_witness :
  (run_c_zeroize 4100 8 ;; run_c_zeroize 4096 32) (buffer 4096 Byte.xff 32)
  = run_c_zeroize 4096 32 (buffer 4096 Byte.xff 32) ∧
  (run_c_zeroize 4096 32 ;; run_c_zeroize 4100 8) (buffer 4096 Byte.xff 32)
  = run_c_zeroize 4096 32 (buffer 4096 Byte.xff 32).
Proof.
  apply (c_zeroize_absorbs_part (buffer 4096 Byte.xff 32) 4096 32 4100 8); lia.
Defined.

(** X4: the call returns with the memory exactly as it found it if and only
    if every byte of [s, s + n) is allocated and already zero. *)
Theorem c_zeroize_unchanged_iff_zero (m : gmap N Byte.byte) (s n : N) :
  run_c_zeroize s n m = Done tt m ↔
  ∀ a, in_region s n a → m !! a = Some Byte.x00.
Proof.
  split.
  - intros Hrun a Ha. rewrite (run_c_zeroize_lookup _ _ _ _ a Hrun).
    by rewrite decide_True.
  - intros Hz. assert (Hv : valid_region m s n).
    { intros i Hi. rewrite Hz; [eauto | unfold in_region; lia]. }
    destruct (run_c_zeroize_valid _ _ _ Hv) as (m' & _ & Hrun).
    rewrite Hrun. apply Done_ext. intros a.
    rewrite (run_c_zeroize_lookup _ _ _ _ a Hrun).
    case_decide as Ha; [symmetry; by apply Hz | done].
Qed.

(** X5: a call that returns changes the validity of no region: a region is
    valid afterwards exactly when it was valid before, so what could be
    zeroized before the call can be zeroized after it, and nothing else. *)
Theorem c_zeroize_keeps_validity (m m' : gmap N Byte.byte) (s n s' n' : N) :
  run_c_zeroize s n m = Done tt m' →
  ((∃ m'', run_c_zeroize s' n' m' = Done tt m'') ↔
   (∃ m'', run_c_zeroize s' n' m = Done tt m'')).
Proof.
  intros Hrun.
  pose proof (run_c_zeroize_valid_after _ _ _ _ s' n' Hrun) as Hv.
  split; intros [m'' H%run_c_zeroize_Done_valid].
  - apply Hv in H. destruct (run_c_zeroize_valid _ _ _ H) as (x & _ & Hx). eauto.
  - apply Hv in H. destruct (run_c_zeroize_valid _ _ _ H) as (x & _ & Hx). eauto.
Qed.

Lemma c_zeroize_keeps_validity_witness :
  (∃ m'', run_c_zeroize 4100 40 (buffer 4096 Byte.x00 32) = Done tt m'') ↔
  (∃ m'', run_c_zeroize 4100 40 (buffer 4096 Byte.xff 32) = Done tt m'').
Proof.
  apply (c_zeroize_keeps_validity
           (buffer 4096 Byte.xff 32) (buffer 4096 Byte.x00 32) 4096 32 4100 40).
  vm_compute. reflexivity.
Defined.
